(** * react-mathlive: the adapter hooks of [src/utils.tsx]

    A shallow embedding of the property classifier [filterConfig], the option
    updater [useUpdateOptions], the event bridge [useEventRegistration], the
    synthetic-input dispatcher [useEventDispatchRef] and the detached-node
    manager [useAddChild], with the properties the specification states
    about them.

    JavaScript objects that are only written and read by key are finite
    maps ([gmap string value]); the property bag, which [for ... in] and
    [Object.keys] enumerate, is an association list in enumeration order. *)

From stdpp Require Import gmap strings list.

Set Warnings "-register-all,-clear-no-such-hyp".

Open Scope string_scope.

(** ** JavaScript values *)

(** The values a property can hold.  Functions and React elements are
    known by identity only. *)
Inductive value :=
  | VUndefined
  | VNull
  | VBool (b : bool)
  | VNum (n : Z)
  | VStr (s : string)
  | VFun (f : nat)
  | VElement (e : nat)
  | VArray (l : list value)
  | VObject (o : list (string * value)).

(** An object whose own enumerable properties are listed in enumeration
    order. *)
Definition object := list (string * value).

(** [Object.keys(o)], also the keys [for (k in o)] visits. *)
Definition keys (o : object) : list string := o.*1.

(** [o[k]]: [undefined] when [o] has no such property. *)
Fixpoint get (o : object) (k : string) : value :=
  match o with
  | [] => VUndefined
  | (k', v) :: o' => if decide (k' = k) then v else get o' k
  end.

(** [typeof v === 'function'] *)
Definition is_function (v : value) : bool :=
  match v with VFun _ => true | _ => false end.

(** [React.isValidElement(v)] *)
Definition isValidElement (v : value) : bool :=
  match v with VElement _ => true | _ => false end.

(** Equality of values is decidable, arrays and objects entry by entry. *)
#[global] Instance value_eq_dec : EqDecision value.
Proof.
  refine (fix rec (a b : value) {struct a} : Decision (a = b) :=
    match a, b with
    | VUndefined, VUndefined => left eq_refl
    | VNull, VNull => left eq_refl
    | VBool x, VBool y => cast_if (decide (x = y))
    | VNum x, VNum y => cast_if (decide (x = y))
    | VStr x, VStr y => cast_if (decide (x = y))
    | VFun x, VFun y => cast_if (decide (x = y))
    | VElement x, VElement y => cast_if (decide (x = y))
    | VArray l, VArray m => cast_if (@list_eq_dec _ rec l m)
    | VObject o, VObject p =>
        cast_if (@list_eq_dec _ (@prod_eq_dec _ _ _ rec) o p)
    | _, _ => right _
    end); congruence.
Defined.

(** How a call ends: it returns, or it throws the named error. *)
Inductive result (A : Type) :=
  | Return (a : A)
  | Throw (error : string).
Arguments Return {A} a.
Arguments Throw {A} error.

(** ** The static tables *)

Definition OPTIONS : list string :=
  [ "createHTML"; "customVirtualKeyboardLayers"; "customVirtualKeyboards";
    "defaultMode"; "fontsDirectory"; "horizontalSpacingScale";
    "ignoreSpacebarInMathMode"; "inlineShortcutTimeout"; "inlineShortcuts";
    "keybindings"; "keypressSound"; "keypressVibration"; "letterShapeStyle";
    "locale"; "macros"; "namespace"; "onBlur"; "onCommit";
    "onContentDidChange"; "onContentWillChange"; "onError"; "onFocus";
    "onKeystroke"; "onModeChange"; "onMoveOutOf"; "onReadAloudStatus";
    "onSelectionDidChange"; "onSelectionWillChange"; "onTabOutOf";
    "onUndoStateDidChange"; "onUndoStateWillChange";
    "onVirtualKeyboardToggle"; "overrideDefaultInlineShortcuts";
    "plonkSound"; "readAloudHook"; "readOnly";
    "removeExtraneousParentheses"; "scriptDepth"; "smartFence"; "smartMode";
    "smartSuperscript"; "speakHook"; "speechEngine"; "speechEngineRate";
    "speechEngineVoice"; "strings"; "substituteTextArea";
    "textToSpeechMarkup"; "textToSpeechRules"; "textToSpeechRulesOptions";
    "virtualKeyboardLayout"; "virtualKeyboardMode"; "virtualKeyboardTheme";
    "virtualKeyboardToggleGlyph"; "virtualKeyboards" ].

Definition FUNCTION_MAPPING : list (string * string) :=
  [ ("onChange", "input");
    ("onInput", "input");
    ("onMathFieldFocus", "focus");
    ("onMathFieldBlur", "blur");
    ("onCommit", "change");
    ("onError", "math-error");
    ("onKeystroke", "keystroke");
    ("onModeChange", "mode-change");
    ("onMoveOutOf", "focus-out");
    ("onReadAloudStatus", "read-aloud-status");
    ("onSelectionWillChange", "selection-will-change");
    ("onUndoStateDidChange", "undo-state-did-change");
    ("onUndoStateWillChange", "undo-state-will-change");
    ("onVirtualKeyboardToggle", "virtual-keyboard-toggle") ].

(** [Object.keys(FUNCTION_MAPPING)] *)
Definition FUNCTION_PROPS : list string := FUNCTION_MAPPING.*1.

Definition MAPPING : list (string * string) :=
  [ ("className", "class"); ("htmlFor", "for") ].

(** The own property [k] of a table of strings. *)
Fixpoint own (t : list (string * string)) (k : string) : option string :=
  match t with
  | [] => None
  | (k', v) :: t' => if decide (k' = k) then Some v else own t' k
  end.

(** [MAPPING] and [FUNCTION_MAPPING] are object literals: a read with a key
    they do not own goes on to [Object.prototype], whose members are these. *)
Definition Object_prototype : list string :=
  [ "constructor"; "__defineGetter__"; "__defineSetter__"; "hasOwnProperty";
    "__lookupGetter__"; "__lookupSetter__"; "isPrototypeOf";
    "propertyIsEnumerable"; "toString"; "valueOf"; "__proto__";
    "toLocaleString" ].

(** The value of [MAPPING[_key] || _key]: a string, or the truthy function
    or object that the member [member] of [Object.prototype] holds. *)
Inductive normalized :=
  | NString (s : string)
  | NInherited (member : string).

Definition normalize (_key : string) : normalized :=
  match own MAPPING _key with
  | Some key => NString key
  | None =>
      if bool_decide (_key ∈ Object_prototype) then NInherited _key
      else NString _key
  end.

(** [t.indexOf(key) > -1] on an array of strings: [indexOf] compares with
    [===], so a key that is not a string is never found. *)
Definition indexOf_found (t : list string) (key : normalized) : bool :=
  match key with
  | NString s => bool_decide (s ∈ t)
  | NInherited _ => false
  end.

(** The property name [o[key] = ...] writes to: the string itself, or the
    string form of the inherited member (the text V8 gives a built-in
    function; [__proto__] reads the prototype object). *)
Definition property_key (key : normalized) : string :=
  match key with
  | NString s => s
  | NInherited member =>
      if decide (member = "__proto__") then "[object Object]"
      else "function "
           ++ (if decide (member = "constructor") then "Object" else member)
           ++ "() { [native code] }"
  end.

(** ** The property classifier *)

Section Classifier.

(** [renderToString] of react-dom/server. *)
Variable renderToString : value → string.

(** [React.isValidElement(value) ||
     (value instanceof Array && value.every(React.isValidElement))] *)
Definition renderable (v : value) : bool :=
  isValidElement v
  || match v with VArray l => forallb isValidElement l | _ => false end.

(** One turn of the loop of [filterConfig]. *)
Definition filterConfig_step (props : object)
    (acc : gmap string value * gmap string value) (_key : string)
    : gmap string value * gmap string value :=
  let key := normalize _key in
  let value := get props _key in
  if indexOf_found FUNCTION_PROPS key then acc
  else if indexOf_found OPTIONS key then
    let value :=
      if renderable value then VStr (renderToString value) else value in
    (<[property_key key := value]> acc.1, acc.2)
  else (acc.1, <[property_key key := value]> acc.2).

(** [filterConfig(props)]: the pair [config, passProps]. *)
Definition filterConfig (props : object)
    : gmap string value * gmap string value :=
  foldl (filterConfig_step props) (∅, ∅) (keys props).

(** What the loop stores for an option whose value is [v]. *)
Definition stored_option (v : value) : value :=
  if renderable v then VStr (renderToString v) else v.

End Classifier.

(** ** The event bridge *)

(** [Object.keys(props).filter(key => typeof props[key] === 'function' &&
     FUNCTION_PROPS.indexOf(MAPPING[key] || key) > -1)] of
    [useEventRegistration]: the properties the event bridge handles. *)
Definition handler_keys (props : object) : list string :=
  filter (λ key, is_function (get props key) = true
                 ∧ indexOf_found FUNCTION_PROPS (normalize key) = true)
         (keys props).


(** An entry [{key, fn}] of [fns] and the event listener it becomes: the
    name of the event and the callback, a closure known by its address. *)
Record listener := Listener {
  listener_key : string;
  listener_fn : nat
}.

#[global] Instance listener_eq_dec : EqDecision listener.
Proof. solve_decision. Defined.

(** The closure [(...args) => { props[key](...args) }], over the bag and
    the key it captured. *)
Record forwarder := Forwarder {
  forwarder_props : object;
  forwarder_key : string
}.

(** The page: the closures made so far, in the order of their addresses,
    and the event listener list of every node. *)
Record page := Page {
  closures : list forwarder;
  listeners : gmap nat (list listener)
}.

Definition listeners_of (d : page) (node : nat) : list listener :=
  default [] (listeners d !! node).

(** [node.addEventListener(key, fn)]: a listener already in the list is
    not added again. *)
Definition addEventListener (node : nat) (key : string) (fn : nat)
    (d : page) : page :=
  if bool_decide (Listener key fn ∈ listeners_of d node) then d
  else Page (closures d)
            (<[node := (listeners_of d node ++ [Listener key fn])%list]>
               (listeners d)).

(** [node.removeEventListener(key, fn)] *)
Definition removeEventListener (node : nat) (key : string) (fn : nat)
    (d : page) : page :=
  Page (closures d)
       (<[node := filter (λ l, l ≠ Listener key fn) (listeners_of d node)]>
          (listeners d)).

(** [FUNCTION_MAPPING[MAPPING[key] || key]], read for the keys the filter
    lets through, all of them own properties of [FUNCTION_MAPPING]. *)
Definition event_name (key : normalized) : string :=
  match key with
  | NString s => default "undefined" (own FUNCTION_MAPPING s)
  | NInherited _ => "undefined"
  end.

(** The array [fns]: one new closure for each handler key, the first at
    address [next]. *)
Definition useEventRegistration_fns (props : object) (next : nat)
    : list listener :=
  imap (λ i key, Listener (event_name (normalize key)) (next + i))
       (handler_keys props).

(** The cleanup an effect run returns: the node and the [fns] it holds. *)
Definition cleanup := option (nat * list listener).

(** The effect of [useEventRegistration]; [ref_current] is the node the ref
    holds, if any. *)
Definition useEventRegistration_effect (ref_current : option nat)
    (props : object) (d : page) : page * cleanup :=
  match ref_current with
  | None => (d, None)
  | Some node =>
      let fns := useEventRegistration_fns props (List.length (closures d)) in
      let d' := Page (closures d ++ (Forwarder props <$> handler_keys props))
                     (listeners d) in
      (foldl (λ d f, addEventListener node (listener_key f) (listener_fn f) d)
             d' fns,
       Some (node, fns))
  end.

Definition run_cleanup (c : cleanup) (d : page) : page :=
  match c with
  | None => d
  | Some (node, fns) =>
      foldl (λ d f,
               removeEventListener node (listener_key f) (listener_fn f) d)
            d fns
  end.

(** A mounted component: the page and the cleanup of the last effect run.
    A render whose bag or ref is new runs that cleanup and then the effect;
    unmounting runs the cleanup. *)
Definition mounted : Type := page * cleanup.

Definition render (st : mounted) (r : option nat * object) : mounted :=
  useEventRegistration_effect r.1 r.2 (run_cleanup st.2 st.1).

Definition unmount (st : mounted) : page := run_cleanup st.2 st.1.

(** The props callbacks that run when an event named [key] fires on
    [node]: every listener under that name calls its closure, which calls
    the callback of the bag it captured. *)
Definition fire (d : page) (node : nat) (key : string) : list value :=
  omap (λ l, (λ f, get (forwarder_props f) (forwarder_key f))
               <$> closures d !! listener_fn l)
       (filter (λ l, listener_key l = key) (listeners_of d node)).

(** ** The option updater *)

(** A call [widget.setOptions(config)]. *)
Record setOptions_call := SetOptions {
  call_widget : nat;
  call_config : gmap string value
}.

Section Updater.

(** [isEqual] of lodash.isequal. *)
Variable isEqual : gmap string value → gmap string value → bool.

(** The layout effect of [useUpdateOptions].  [ref_current] is the widget
    the ref holds, if any, and [configRef] the content of the cell
    [useRef] returned; the result is the new content of the cell and the
    calls made. *)
Definition useUpdateOptions_effect (ref_current : option nat)
    (config configRef : gmap string value)
    : gmap string value * list setOptions_call :=
  if negb (isEqual configRef config) then
    (config,
     match ref_current with
     | Some widget => [SetOptions widget config]
     | None => []
     end)
  else (configRef, []).

(** The effect over the renders that follow, each with the widget the ref
    holds then and a new configuration object. *)
Fixpoint rerender (renders : list (option nat * gmap string value))
    (configRef : gmap string value) : list setOptions_call :=
  match renders with
  | [] => []
  | (ref_current, config) :: renders' =>
      let '(configRef', calls) :=
        useUpdateOptions_effect ref_current config configRef in
      (calls ++ rerender renders' configRef')%list
  end.

(** The calls a component makes over its renders: on the first one
    [useRef(config)] fills the cell with the configuration of that render,
    and the effect runs on every one. *)
Definition useUpdateOptions
    (renders : list (option nat * gmap string value))
    : list setOptions_call :=
  match renders with
  | [] => []
  | (_, config) :: _ => rerender renders config
  end.

End Updater.

(** ** The synthetic-input dispatcher *)

(** A descriptor of the property [value], as far as the dispatcher reads
    it: its [set], a function or [undefined]. *)
Record descriptor := Descriptor {
  descriptor_set : option nat
}.

(** The element the ref holds:
    [Object.getOwnPropertyDescriptor(handler, 'value')] and
    [Object.getOwnPropertyDescriptor(Object.getPrototypeOf(handler), 'value')],
    each absent when there is no such property. *)
Record input_element := InputElement {
  own_value : option descriptor;
  prototype_value : option descriptor
}.

(** What [dispatchEvent] does to the element, in order. *)
Inductive action :=
  | SetterCall (setter : nat) (v : value)
  | DispatchEvent (type : string) (bubbles cancelable : bool) (detail : object).

(** [f.call(handler, v)], where [f] may be [undefined]. *)
Definition call_setter (f : option nat) (v : value) : result (list action) :=
  match f with
  | Some setter => Return [SetterCall setter v]
  | None => Throw "TypeError"
  end.

(** The callback [dispatchEvent] of [useEventDispatchRef]. *)
Definition dispatchEvent (ref_current : option input_element)
    (type : string) (detail : object) : result (list action) :=
  match ref_current with
  | None => Return []
  | Some handler =>
      match own_value handler with
      | None => Throw "TypeError"
      | Some own_descriptor =>
          let valueSetter := descriptor_set own_descriptor in
          match prototype_value handler with
          | None => Throw "TypeError"
          | Some prototype_descriptor =>
              let prototypeValueSetter :=
                descriptor_set prototype_descriptor in
              let called :=
                if bool_decide (is_Some valueSetter)
                   && bool_decide (valueSetter ≠ prototypeValueSetter)
                then call_setter prototypeValueSetter (get detail "value")
                else call_setter valueSetter (get detail "value") in
              match called with
              | Throw e => Throw e
              | Return acts =>
                  Return (acts ++ [DispatchEvent type true true detail])%list
              end
          end
      end
  end.

(** ** The detached-node manager *)

(** [parent.appendChild(child)] on the children of [parent]: a child that
    is already there moves to the end. *)
Definition appendChild (child : nat) (children : list nat) : list nat :=
  (filter (λ c, c ≠ child) children ++ [child])%list.

(** [parent.removeChild(child)]: it throws when [child] is not a child of
    [parent]. *)
Definition removeChild (child : nat) (children : list nat)
    : result (list nat) :=
  if bool_decide (child ∈ children)
  then Return (filter (λ c, c ≠ child) children)
  else Throw "NotFoundError".

(** The layout effect of [useAddChild] on the children of [document.body],
    and the cleanup it returns; [container] is the node [useMemo] keeps. *)
Definition useAddChild_effect (container : nat) (body : list nat)
    : list nat :=
  appendChild container body.

Definition useAddChild_cleanup (container : nat) (body : list nat)
    : result (list nat) :=
  removeChild container body.

(** ** The vocabulary of the specification *)

(** The key under which a property of the bag is filed. *)
Definition renamed (_key : string) : string := property_key (normalize _key).

(** The key as the RenameTable normalizes it: the table's entry for the
    key, or the key itself where the table has none. *)
Definition table_key (_key : string) : string :=
  default _key (own MAPPING _key).

(** A bag none of whose keys is the name of a member of
    [Object.prototype]. *)
Definition plain_keys (props : object) : Prop :=
  Forall (λ k, k ∉ Object_prototype) (keys props).

(** The two tests of the loop, on the key of the bag. *)
Definition handled (_key : string) : bool :=
  indexOf_found FUNCTION_PROPS (normalize _key).

Definition recognized (_key : string) : bool :=
  indexOf_found OPTIONS (normalize _key).

(** Where the loop files a key of the bag. *)
Definition filed_as_option (_key : string) : bool :=
  negb (handled _key) && recognized _key.

Definition passed_through (_key : string) : bool :=
  negb (handled _key) && negb (recognized _key).

(** The handler keys of the bag, as a set. *)
Definition handler_set (props : object) : gset string :=
  list_to_set (handler_keys props).

(** The three partitions together hold every renamed key of the bag. *)
Definition partitions_cover (renderToString : value → string)
    (props : object) : Prop :=
  dom (filterConfig renderToString props).1
    ∪ dom (filterConfig renderToString props).2
    ∪ handler_set props
  = list_to_set (renamed <$> keys props).

Definition partitions_disjoint (renderToString : value → string)
    (props : object) : Prop :=
  dom (filterConfig renderToString props).1
    ## dom (filterConfig renderToString props).2
  ∧ dom (filterConfig renderToString props).1 ## handler_set props
  ∧ dom (filterConfig renderToString props).2 ## handler_set props.

(** A handler name whose value is not a function: the classifier sets it
    aside and the event bridge does not take it. *)
Definition unbound_handler (props : object) (_key : string) : bool :=
  handled _key && negb (is_function (get props _key)).

(** The setter the specification selects: the element's own when it is
    there and is not the prototype's, else the prototype's. *)
Definition specified_setter (own_set prototype_set : nat) : nat :=
  if decide (own_set ≠ prototype_set) then own_set else prototype_set.

(** The listeners a node carries while [c] is the pending cleanup. *)
Definition attached (c : cleanup) (node : nat) : list listener :=
  match c with
  | Some (node', fns) => if decide (node' = node) then fns else []
  | None => []
  end.

(** A page with no closure and no listener. *)
Definition blank : page := Page [] ∅.

(** While a cleanup is pending, each node carries the listeners of that
    cleanup and no others. *)
Definition in_step (st : mounted) : Prop :=
  ∀ node, listeners_of st.1 node = attached st.2 node.

(** Equality of configurations: the same keys with the same values. *)
Definition same_config (a b : gmap string value) : bool :=
  bool_decide (a = b).

(** Each configuration of [configs] differs from the one before it, and
    the first of them from [config]. *)
Fixpoint each_differs (isEqual : gmap string value → gmap string value → bool)
    (config : gmap string value) (configs : list (gmap string value))
    : Prop :=
  match configs with
  | [] => True
  | config' :: configs' =>
      isEqual config config' = false ∧ each_differs isEqual config' configs'
  end.

(** Two bags with the same options: each key [OPTIONS] lists and
    [FUNCTION_MAPPING] does not is in both or in neither, with one value. *)
Definition same_options (props1 props2 : object) : Prop :=
  ∀ k, k ∈ OPTIONS → k ∉ FUNCTION_PROPS →
       (k ∈ keys props1 ↔ k ∈ keys props2) ∧ get props1 k = get props2 k.

(** The event names the bridge listens to. *)
Definition event_names : list string := FUNCTION_MAPPING.*2.

(** Every listener a pending cleanup holds is under one of those names. *)
Definition named (c : cleanup) : Prop :=
  match c with
  | Some (_, fns) => Forall (λ f, listener_key f ∈ event_names) fns
  | None => True
  end.

(** Every listener on the page calls a closure that has been made. *)
Definition allocated (d : page) : Prop :=
  ∀ node l,
    l ∈ listeners_of d node →
    (listener_fn l < List.length (closures d))%nat.

(** ** Sample inputs *)

(** The bag of the specification's scenario. *)
Definition scenario : object :=
  [ ("value", VStr "x^2"); ("onCommit", VFun 0); ("className", VStr "foo") ].

(** A bag with two properties that are filed under one name. *)
Definition two_classes : object :=
  [ ("class", VStr "a"); ("className", VStr "b"); ("id", VStr "c") ].

(** A configuration that sets one option. *)
Definition french : gmap string value := {[ "locale" := VStr "fr" ]}.

(** Two bags that differ in a callback and in a passthrough property only. *)
Definition with_locale : object :=
  [ ("locale", VStr "fr"); ("onCommit", VFun 0) ].

Definition with_locale_again : object :=
  [ ("onCommit", VFun 1); ("id", VStr "field"); ("locale", VStr "fr") ].

(** A page on which another component has attached a listener to node 7. *)
Definition shared_node : page :=
  Page [Forwarder scenario "onCommit"] {[ 7 := [Listener "change" 0] ]}.

(** * Properties *)

(** A closed decidable fact, by evaluation. *)
Ltac computed := apply (bool_decide_unpack _); by vm_compute.

(** ** Facts about the tables *)

(** The renames, their targets and the members of [Object.prototype] are
    neither options nor handlers. *)
Lemma renames_unlisted k v :
  own MAPPING k = Some v → v ∉ (OPTIONS ++ FUNCTION_PROPS)%list.
Proof.
  simpl. repeat case_decide; intros; simplify_eq;
    computed.
Qed.

Lemma renamed_unlisted k v :
  own MAPPING k = Some v → k ∉ (OPTIONS ++ FUNCTION_PROPS)%list.
Proof.
  simpl. repeat case_decide; intros; simplify_eq;
    computed.
Qed.

Lemma prototype_unlisted k :
  k ∈ Object_prototype → k ∉ (OPTIONS ++ FUNCTION_PROPS)%list.
Proof.
  revert k. apply Forall_forall.
  computed.
Qed.

(** Outside the renames and the prototype, a key stands for itself. *)
Lemma normalize_listed k :
  k ∈ (OPTIONS ++ FUNCTION_PROPS)%list → normalize k = NString k.
Proof.
  intros Hk. unfold normalize.
  destruct (own MAPPING k) eqn:Hown.
  - by apply renamed_unlisted in Hown.
  - case_bool_decide as Hp; [|done]. by apply prototype_unlisted in Hp.
Qed.

Lemma normalize_string _key s :
  normalize _key = NString s →
  s ∈ (OPTIONS ++ FUNCTION_PROPS)%list → _key = s.
Proof.
  unfold normalize. intros Hn Hs.
  destruct (own MAPPING _key) as [k|] eqn:Hown.
  - injection Hn as ->. by apply renames_unlisted in Hown.
  - case_bool_decide; by simplify_eq.
Qed.

Lemma inherited_unlisted _key member :
  normalize _key = NInherited member →
  property_key (NInherited member) ∉ (OPTIONS ++ FUNCTION_PROPS)%list.
Proof.
  unfold normalize. destruct (own MAPPING _key); [done|].
  case_bool_decide as Hin; [|done]. intros [= <-].
  revert _key Hin. apply Forall_forall.
  computed.
Qed.

(** A key the loop files as an option or leaves to the event bridge is
    filed under its own name. *)
Lemma handled_renamed _key : handled _key = true → renamed _key = _key.
Proof.
  unfold handled, renamed, indexOf_found.
  destruct (normalize _key) as [s|] eqn:Hn; [|done].
  intros Hs%bool_decide_eq_true_1. simpl. symmetry.
  apply (normalize_string _ _ Hn), elem_of_app. by right.
Qed.

Lemma recognized_renamed _key : recognized _key = true → renamed _key = _key.
Proof.
  unfold recognized, renamed, indexOf_found.
  destruct (normalize _key) as [s|] eqn:Hn; [|done].
  intros Hs%bool_decide_eq_true_1. simpl. symmetry.
  apply (normalize_string _ _ Hn), elem_of_app. by left.
Qed.

Lemma handled_listed _key : handled _key = true ↔ _key ∈ FUNCTION_PROPS.
Proof.
  split.
  - intros H. pose proof (handled_renamed _ H) as Hr. revert H Hr.
    unfold handled, renamed, indexOf_found.
    destruct (normalize _key); [|done]. simpl.
    by intros ?%bool_decide_eq_true_1 <-.
  - intros H. unfold handled. rewrite normalize_listed.
    + by apply bool_decide_eq_true_2.
    + apply elem_of_app. by right.
Qed.

Lemma recognized_listed _key : recognized _key = true ↔ _key ∈ OPTIONS.
Proof.
  split.
  - intros H. pose proof (recognized_renamed _ H) as Hr. revert H Hr.
    unfold recognized, renamed, indexOf_found.
    destruct (normalize _key); [|done]. simpl.
    by intros ?%bool_decide_eq_true_1 <-.
  - intros H. unfold recognized. rewrite normalize_listed.
    + by apply bool_decide_eq_true_2.
    + apply elem_of_app. by left.
Qed.

(** Off the names of [Object.prototype], the loop works on the key the
    RenameTable gives. *)
Lemma normalize_plain k :
  k ∉ Object_prototype → normalize k = NString (table_key k).
Proof.
  intros Hk. unfold normalize, table_key.
  destruct (own MAPPING k); [done|]. by rewrite bool_decide_eq_false_2.
Qed.

Lemma renamed_plain k : k ∉ Object_prototype → renamed k = table_key k.
Proof. intros Hk. unfold renamed. by rewrite normalize_plain. Qed.

(** A key the loop passes through is filed under a name that is neither an
    option nor a handler. *)
Lemma passed_unlisted _key :
  handled _key = false → recognized _key = false →
  renamed _key ∉ (OPTIONS ++ FUNCTION_PROPS)%list.
Proof.
  unfold handled, recognized, renamed.
  destruct (normalize _key) as [s|m] eqn:Hn.
  - cbn [indexOf_found property_key].
    intros ?%bool_decide_eq_false_1 ?%bool_decide_eq_false_1.
    rewrite elem_of_app. tauto.
  - intros _ _. by eapply inherited_unlisted.
Qed.

(** ** The loop of the classifier *)

Section ClassifierLoop.

Variable renderToString : value → string.

Lemma step_config props acc k x :
  (filterConfig_step renderToString props acc k).1 !! x =
    if bool_decide (k = x ∧ filed_as_option k = true)
    then Some (stored_option renderToString (get props k)) else acc.1 !! x.
Proof.
  unfold filterConfig_step, filed_as_option.
  fold (handled k) (recognized k) (renamed k).
  destruct (handled k) eqn:Hh; cbn [negb andb].
  { rewrite bool_decide_eq_false_2; [done|]. by intros [_ ?]. }
  destruct (recognized k) eqn:Hr; cbn [fst snd].
  - rewrite (recognized_renamed _ Hr), lookup_insert.
    case_decide; case_bool_decide; naive_solver.
  - rewrite bool_decide_eq_false_2; [done|]. by intros [_ ?].
Qed.

Lemma step_pass props acc k x :
  (filterConfig_step renderToString props acc k).2 !! x =
    if bool_decide (renamed k = x ∧ passed_through k = true)
    then Some (get props k) else acc.2 !! x.
Proof.
  unfold filterConfig_step, passed_through.
  fold (handled k) (recognized k) (renamed k).
  destruct (handled k) eqn:Hh; cbn [negb andb].
  { rewrite bool_decide_eq_false_2; [done|]. by intros [_ ?]. }
  destruct (recognized k) eqn:Hr; cbn [fst snd negb].
  - rewrite bool_decide_eq_false_2; [done|]. by intros [_ ?].
  - rewrite lookup_insert.
    case_decide; case_bool_decide; naive_solver.
Qed.

(** The ConfigurationObject in closed form: it holds exactly the keys of
    the bag filed as options, each with the stored form of its value. *)
Lemma loop_config props l acc x :
  (foldl (filterConfig_step renderToString props) acc l).1 !! x =
    if bool_decide (x ∈ l ∧ filed_as_option x = true)
    then Some (stored_option renderToString (get props x)) else acc.1 !! x.
Proof.
  revert acc. induction l as [|k l IH]; intros acc; cbn [foldl].
  - rewrite bool_decide_eq_false_2; [done|]. intros [?%elem_of_nil _]; done.
  - rewrite IH, step_config.
    repeat case_bool_decide; try done; set_solver.
Qed.

(** A later key filed elsewhere leaves an entry of the PassthroughBag
    alone. *)
Lemma loop_pass_keep props l acc x :
  (∀ k, k ∈ l → renamed k ≠ x) →
  (foldl (filterConfig_step renderToString props) acc l).2 !! x
    = acc.2 !! x.
Proof.
  revert acc. induction l as [|k l IH]; intros acc Hl; cbn [foldl]; [done|].
  rewrite IH, step_pass by set_solver.
  rewrite bool_decide_eq_false_2; [done|].
  intros [? _]. apply (Hl k); [set_solver|done].
Qed.

Lemma loop_pass_dom props l acc x :
  x ∈ dom (foldl (filterConfig_step renderToString props) acc l).2 ↔
    x ∈ dom acc.2
    ∨ ∃ k, k ∈ l ∧ passed_through k = true ∧ renamed k = x.
Proof.
  revert acc. induction l as [|k l IH]; intros acc; cbn [foldl].
  - set_solver.
  - rewrite IH, !elem_of_dom, step_pass.
    case_bool_decide as Hk.
    + split; [|intros _; left; by eexists].
      intros [_|(k'&?&?&?)]; right; [exists k|exists k']; set_solver.
    + split; [intros [?|(k'&?&?&?)]; [by left|right; exists k'; set_solver]|].
      intros [?|(k'&[->|?]%elem_of_cons&?&?)]; [by left|naive_solver|].
      right. by exists k'.
Qed.

End ClassifierLoop.

(** ** What the specification says of the classifier *)

Section ClassifierSpec.

Variable renderToString : value → string.

Lemma config_lookup props x :
  (filterConfig renderToString props).1 !! x =
    if bool_decide (x ∈ keys props ∧ filed_as_option x = true)
    then Some (stored_option renderToString (get props x)) else None.
Proof.
  unfold filterConfig. rewrite loop_config. cbn [fst].
  by rewrite lookup_empty.
Qed.

Lemma config_dom props x :
  x ∈ dom (filterConfig renderToString props).1 ↔
    x ∈ keys props ∧ filed_as_option x = true.
Proof.
  rewrite elem_of_dom, config_lookup.
  case_bool_decide; [naive_solver|]. split; [by intros []|done].
Qed.

Lemma pass_dom props x :
  x ∈ dom (filterConfig renderToString props).2 ↔
    ∃ k, k ∈ keys props ∧ passed_through k = true ∧ renamed k = x.
Proof. unfold filterConfig. rewrite loop_pass_dom. set_solver. Qed.

Lemma handler_set_elem props x :
  x ∈ handler_set props ↔
    x ∈ keys props ∧ is_function (get props x) = true ∧ handled x = true.
Proof.
  unfold handler_set, handler_keys.
  rewrite elem_of_list_to_set, list_elem_of_filter. unfold handled. tauto.
Qed.

Lemma filed_as_option_listed x :
  filed_as_option x = true ↔ x ∈ OPTIONS ∧ x ∉ FUNCTION_PROPS.
Proof.
  unfold filed_as_option.
  rewrite andb_true_iff, negb_true_iff, recognized_listed,
    <- handled_listed, not_true_iff_false. tauto.
Qed.

(** C4. Every key of the ConfigurationObject is one of [OPTIONS] and none
    is in the domain of [FUNCTION_MAPPING]; [onCommit], which both tables
    list, is never a key of it. *)
Theorem filterConfig_config_keys props :
  set_Forall (λ k, k ∈ OPTIONS ∧ k ∉ FUNCTION_PROPS)
             (dom (filterConfig renderToString props).1)
  ∧ "onCommit" ∈ OPTIONS ∧ "onCommit" ∈ FUNCTION_PROPS
  ∧ (filterConfig renderToString props).1 !! "onCommit" = None.
Proof.
  split; [|split; [|split]].
  - intros k [_ Hk]%config_dom. by apply filed_as_option_listed.
  - computed.
  - computed.
  - rewrite config_lookup, bool_decide_eq_false_2; [done|]. by intros [_ ?].
Qed.

(** C10 (amended). A recognized option key outside the domain of
    [FUNCTION_MAPPING] whose value is the empty array passes the test for
    a sequence of React elements, vacuously, and the ConfigurationObject
    holds the rendered string in place of the array. *)
Theorem filterConfig_empty_array props key :
  key ∈ keys props → key ∈ OPTIONS → key ∉ FUNCTION_PROPS →
  get props key = VArray [] →
  renderable (VArray []) = true
  ∧ (filterConfig renderToString props).1 !! key
      = Some (VStr (renderToString (VArray []))).
Proof.
  intros Hin Hopt Hfun Hval. split; [done|].
  rewrite config_lookup, bool_decide_eq_true_2, Hval; [done|].
  split; [done|]. by apply filed_as_option_listed.
Qed.

(** C6 (amended). In a bag none of whose keys names a member of
    [Object.prototype], a property whose normalized key, the RenameTable's
    entry for the key or the key itself, is neither a handler name nor a
    recognized option is placed in the PassthroughBag under that normalized
    key, with its value; of several such properties with one normalized key
    the last in enumeration order stays. *)
Theorem filterConfig_passthrough props l1 _key l2 :
  plain_keys props →
  keys props = (l1 ++ _key :: l2)%list →
  table_key _key ∉ FUNCTION_PROPS →
  table_key _key ∉ OPTIONS →
  (∀ k, k ∈ l2 → table_key k ≠ table_key _key) →
  (filterConfig renderToString props).2 !! table_key _key
    = Some (get props _key).
Proof.
  intros Hplain Hkeys Hh Hr Hlast. unfold plain_keys in Hplain.
  rewrite Hkeys, Forall_app, Forall_cons in Hplain.
  destruct Hplain as (_ & Hkey & Hl2). rewrite Forall_forall in Hl2.
  unfold filterConfig. rewrite Hkeys, foldl_app. cbn [foldl].
  rewrite <- (renamed_plain _key Hkey).
  rewrite loop_pass_keep.
  - rewrite step_pass, bool_decide_eq_true_2; [done|].
    split; [done|]. unfold passed_through, handled, recognized.
    rewrite (normalize_plain _ Hkey). cbn [indexOf_found].
    by rewrite !bool_decide_eq_false_2.
  - intros k Hk. rewrite !renamed_plain by auto. by apply Hlast.
Qed.

(** The three partitions over the names under which the loop files the
    keys, for any bag. *)
Lemma partition_filed props :
  dom (filterConfig renderToString props).1
    ∪ dom (filterConfig renderToString props).2
    ∪ handler_set props
  = list_to_set
      (renamed <$> filter (λ k, unbound_handler props k = false)
                          (keys props))
  ∧ partitions_disjoint renderToString props
  ∧ dom (filterConfig renderToString props).1
      ∪ dom (filterConfig renderToString props).2
      ∪ handler_set props
      ∪ list_to_set (filter (λ k, unbound_handler props k = true)
                            (keys props))
    = list_to_set (renamed <$> keys props).
Proof.
  split; [|split].
  - apply set_eq. intros x.
    rewrite !elem_of_union, config_dom, pass_dom, handler_set_elem,
      elem_of_list_to_set, list_elem_of_fmap.
    setoid_rewrite list_elem_of_filter. unfold unbound_handler.
    split.
    + intros [[[Hx Hf]|(k & Hk & Hp & <-)]|(Hx & Hf & Hh)].
      * apply andb_true_iff in Hf as [Hh%negb_true_iff Hr].
        exists x. rewrite (recognized_renamed _ Hr), Hh. done.
      * apply andb_true_iff in Hp as [Hh%negb_true_iff _].
        exists k. by rewrite Hh.
      * exists x. by rewrite (handled_renamed _ Hh), Hh, Hf.
    + intros (k & -> & Hu & Hk). unfold filed_as_option, passed_through.
      destruct (handled k) eqn:Hh; cbn [andb negb] in *.
      * right. apply negb_false_iff in Hu.
        by rewrite (handled_renamed _ Hh), Hh.
      * left. destruct (recognized k) eqn:Hr.
        -- left. rewrite (recognized_renamed _ Hr), Hh, Hr. done.
        -- right. exists k. by rewrite Hh, Hr.
  - unfold partitions_disjoint. rewrite !elem_of_disjoint.
    split; [|split]; intros x.
    + intros [_ [Ho _]%filed_as_option_listed]%config_dom
        (k & _ & Hp & <-)%pass_dom.
      apply andb_true_iff in Hp as [Hh%negb_true_iff Hr%negb_true_iff].
      apply (passed_unlisted _ Hh Hr), elem_of_app. by left.
    + intros [_ [_ Hn]%filed_as_option_listed]%config_dom
        (_ & _ & Hh%handled_listed)%handler_set_elem. done.
    + intros (k & _ & Hp & <-)%pass_dom
        (_ & _ & Hl%handled_listed)%handler_set_elem.
      apply andb_true_iff in Hp as [Hh%negb_true_iff Hr%negb_true_iff].
      apply (passed_unlisted _ Hh Hr), elem_of_app. by right.
  - apply set_eq. intros x.
    rewrite !elem_of_union, config_dom, pass_dom, handler_set_elem,
      !elem_of_list_to_set, list_elem_of_fmap, list_elem_of_filter.
    unfold unbound_handler. split.
    + intros [[[[Hx Hf]|(k & Hk & Hp & <-)]|(Hx & Hf & Hh)]|[Hu Hx]].
      * apply andb_true_iff in Hf as [_ Hr].
        exists x. by rewrite (recognized_renamed _ Hr).
      * by exists k.
      * exists x. by rewrite (handled_renamed _ Hh).
      * apply andb_true_iff in Hu as [Hh _].
        exists x. by rewrite (handled_renamed _ Hh).
    + intros (k & -> & Hk). unfold filed_as_option, passed_through.
      destruct (handled k) eqn:Hh; cbn [andb negb].
      * rewrite (handled_renamed _ Hh), Hh.
        destruct (is_function (get props k)) eqn:Hf; cbn [negb];
          [left; right|right]; done.
      * left. left. destruct (recognized k) eqn:Hr.
        -- left. rewrite (recognized_renamed _ Hr), Hh, Hr. done.
        -- right. exists k. by rewrite Hh, Hr.
Qed.

Lemma unbound_handler_false props k :
  unbound_handler props k = false
  ↔ (k ∈ FUNCTION_PROPS → is_function (get props k) = true).
Proof.
  unfold unbound_handler. rewrite <- handled_listed.
  destruct (handled k), (is_function (get props k)); cbn; naive_solver.
Qed.

Lemma unbound_handler_true props k :
  unbound_handler props k = true
  ↔ k ∈ FUNCTION_PROPS ∧ is_function (get props k) = false.
Proof.
  unfold unbound_handler. rewrite <- handled_listed.
  destruct (handled k), (is_function (get props k)); cbn; naive_solver.
Qed.

(** C1 (amended). For a bag none of whose keys names a member of
    [Object.prototype]: the keys of the ConfigurationObject, the keys of
    the PassthroughBag and the handler keys the event bridge selects are
    pairwise disjoint, and together they are the keys of the bag as the
    RenameTable normalizes them, without the handler names whose value is
    not a function; with those names added, they are all the normalized keys
    of the bag. *)
Theorem filterConfig_partition props :
  plain_keys props →
  dom (filterConfig renderToString props).1
    ∪ dom (filterConfig renderToString props).2
    ∪ handler_set props
  = list_to_set
      (table_key
         <$> filter (λ k, k ∈ FUNCTION_PROPS →
                          is_function (get props k) = true)
                    (keys props))
  ∧ partitions_disjoint renderToString props
  ∧ dom (filterConfig renderToString props).1
      ∪ dom (filterConfig renderToString props).2
      ∪ handler_set props
      ∪ list_to_set (filter (λ k, k ∈ FUNCTION_PROPS
                                  ∧ is_function (get props k) = false)
                            (keys props))
    = list_to_set (table_key <$> keys props).
Proof.
  intros Hplain. unfold plain_keys in Hplain. rewrite Forall_forall in Hplain.
  destruct (partition_filed props) as (Hcover & Hdisjoint & Hall).
  split; [|split; [done|]].
  - rewrite Hcover. apply set_eq. intros x.
    rewrite !elem_of_list_to_set, !list_elem_of_fmap.
    setoid_rewrite list_elem_of_filter.
    split; intros (k & -> & Hu & Hk); exists k;
      rewrite renamed_plain by auto;
      (split; [done|]); (split; [|done]); by apply unbound_handler_false.
  - assert (filter (λ k, k ∈ FUNCTION_PROPS
                         ∧ is_function (get props k) = false) (keys props)
            = filter (λ k, unbound_handler props k = true) (keys props))
      as -> by (apply list_filter_iff; intros k; symmetry;
                apply unbound_handler_true).
    rewrite Hall. apply set_eq. intros x.
    rewrite !elem_of_list_to_set, !list_elem_of_fmap.
    split; intros (k & -> & Hk); exists k; by rewrite renamed_plain by auto.
Qed.

End ClassifierSpec.

(** ** The classifier on concrete bags *)

Example filterConfig_scenario :
  filterConfig (λ _, "") scenario
    = (∅, {[ "value" := VStr "x^2"; "class" := VStr "foo" ]})
  ∧ handler_keys scenario = ["onCommit"].
Proof. split; by vm_compute. Qed.

(** C1, as the specification states it, fails on a bag that leaves a
    handler name unbound: [onChange] is a key of the bag and of none of the
    three partitions. *)
Lemma partitions_cover_counterexample :
  ¬ partitions_cover (λ _, "") [("onChange", VUndefined)].
Proof.
  unfold partitions_cover. intros H.
  apply (f_equal (λ X : gset string, bool_decide ("onChange" ∈ X))) in H.
  by vm_compute in H.
Qed.

(** C6, as the specification states it, fails on [className]: the
    PassthroughBag holds the value under [class], not under the original
    key. *)
Lemma passthrough_original_key_counterexample :
  let props := [("className", VStr "foo")] in
  "className" ∈ keys props
  ∧ indexOf_found FUNCTION_PROPS (normalize "className") = false
  ∧ indexOf_found OPTIONS (normalize "className") = false
  ∧ (filterConfig (λ _, "") props).2 !! "className" = None
  ∧ (filterConfig (λ _, "") props).2 !! "class" = Some (VStr "foo").
Proof. repeat split; try by vm_compute. computed. Qed.

Lemma filterConfig_passthrough_witness :
  (filterConfig (λ _, "") two_classes).2 !! "class" = Some (VStr "b").
Proof.
  apply (filterConfig_passthrough (λ _, "") two_classes
           ["class"] "className" ["id"]).
  - unfold plain_keys. computed.
  - reflexivity.
  - computed.
  - computed.
  - intros k Hk. apply list_elem_of_singleton in Hk. subst k. by vm_compute.
Defined.

Lemma filterConfig_partition_witness :
  dom (filterConfig (λ _, "") scenario).1
    ∪ dom (filterConfig (λ _, "") scenario).2
    ∪ handler_set scenario
  = list_to_set
      (table_key
         <$> filter (λ k, k ∈ FUNCTION_PROPS →
                          is_function (get scenario k) = true)
                    (keys scenario))
  ∧ partitions_disjoint (λ _, "") scenario
  ∧ dom (filterConfig (λ _, "") scenario).1
      ∪ dom (filterConfig (λ _, "") scenario).2
      ∪ handler_set scenario
      ∪ list_to_set (filter (λ k, k ∈ FUNCTION_PROPS
                                  ∧ is_function (get scenario k) = false)
                            (keys scenario))
    = list_to_set (table_key <$> keys scenario).
Proof.
  apply (filterConfig_partition (λ _, "") scenario).
  unfold plain_keys. computed.
Defined.

(** C10, as the specification states it, fails on a recognized option key
    that is also a handler name: the empty array under [onCommit] is set
    aside, and the ConfigurationObject has no such key. *)
Lemma empty_array_counterexample :
  let props := [("onCommit", VArray [])] in
  "onCommit" ∈ keys props ∧ "onCommit" ∈ OPTIONS
  ∧ get props "onCommit" = VArray []
  ∧ (filterConfig (λ _, "") props).1 !! "onCommit" = None.
Proof.
  repeat split; try by vm_compute.
  all: computed.
Qed.

Lemma filterConfig_empty_array_witness :
  renderable (VArray []) = true
  ∧ (filterConfig (λ _, "") [("locale", VArray [])]).1 !! "locale"
      = Some (VStr "").
Proof.
  apply (filterConfig_empty_array (λ _, "")
           [("locale", VArray [])] "locale").
  - computed.
  - computed.
  - computed.
  - reflexivity.
Defined.

(** ** What the specification says of the option updater *)

Section UpdaterSpec.

Variable isEqual : gmap string value → gmap string value → bool.

(** C2 (amended). Two configurations that differ, applied in sequence to
    a newly mounted updater whose widget is present at the second: the
    first application compares the configuration with the cell it has
    just filled and calls nothing, the second calls [setOptions] once,
    with the second configuration. *)
Theorem useUpdateOptions_different ref1 widget config1 config2 :
  isEqual config1 config1 = true →
  isEqual config1 config2 = false →
  useUpdateOptions isEqual [(ref1, config1); (Some widget, config2)]
    = [SetOptions widget config2].
Proof.
  intros Hrefl Hdiff. cbn [useUpdateOptions rerender].
  unfold useUpdateOptions_effect. rewrite Hrefl. cbn [negb].
  by rewrite Hdiff.
Qed.

(** C3. Two equal configurations applied in sequence, whatever the cell
    holds and whether or not the widget is there: the first application
    calls [setOptions] at most once, and only with the first
    configuration; the second calls nothing and leaves the cell as it is.
    On a newly mounted updater neither calls anything. *)
Theorem useUpdateOptions_equal configRef ref1 ref2 config1 config2 :
  (∀ a b c,
     isEqual a b = true → isEqual b c = true → isEqual a c = true) →
  isEqual config1 config1 = true →
  isEqual config1 config2 = true →
  let first := useUpdateOptions_effect isEqual ref1 config1 configRef in
  let second := useUpdateOptions_effect isEqual ref2 config2 first.1 in
  (List.length first.2 ≤ 1)%nat
  ∧ Forall (λ c, call_config c = config1) first.2
  ∧ second = (first.1, [])
  ∧ useUpdateOptions isEqual [(ref1, config1); (ref2, config2)] = [].
Proof.
  intros Htrans Hrefl Heq. cbn zeta.
  cbn [useUpdateOptions rerender]. unfold useUpdateOptions_effect.
  rewrite Hrefl. cbn [negb]. rewrite Heq. cbn [negb app].
  destruct (isEqual configRef config1) eqn:H0; cbn [negb fst snd].
  - rewrite (Htrans _ _ _ H0 Heq). cbn [negb List.length].
    repeat split; [lia|constructor].
  - rewrite Heq. cbn [negb].
    destruct ref1; cbn [List.length]; repeat split; try lia;
      repeat constructor.
Qed.

(** C9. When the effect runs with the widget absent and a configuration
    that differs from the one in the cell, the cell takes the new
    configuration though nothing was called; a later run with the widget
    present and an equal configuration calls nothing either, so the
    widget never receives it. *)
Theorem useUpdateOptions_absent_widget configRef config config' widget :
  isEqual configRef config = false →
  isEqual config config' = true →
  useUpdateOptions_effect isEqual None config configRef = (config, [])
  ∧ useUpdateOptions_effect isEqual (Some widget) config' config
      = (config, [])
  ∧ rerender isEqual [(None, config); (Some widget, config')] configRef
      = [].
Proof.
  intros Hdiff Heq. cbn [rerender]. unfold useUpdateOptions_effect.
  rewrite Hdiff. cbn [negb]. by rewrite Heq.
Qed.

End UpdaterSpec.

(** ** The option updater on concrete configurations *)

Lemma same_config_refl a : same_config a a = true.
Proof. by apply bool_decide_eq_true_2. Qed.

Lemma same_config_trans a b c :
  same_config a b = true → same_config b c = true → same_config a c = true.
Proof. unfold same_config. rewrite !bool_decide_eq_true. congruence. Qed.

(** C2, as the specification states it, fails: the empty configuration
    followed by one that sets the locale gives one call, not two, and none
    with the first. *)
Lemma setter_twice_counterexample :
  same_config ∅ french = false
  ∧ useUpdateOptions same_config [(Some 0, ∅); (Some 0, french)]
      = [SetOptions 0 french]
  ∧ useUpdateOptions same_config [(Some 0, ∅); (Some 0, french)]
      ≠ [SetOptions 0 ∅; SetOptions 0 french].
Proof. repeat split; by vm_compute. Qed.

Lemma useUpdateOptions_different_witness :
  useUpdateOptions same_config [(Some 0, ∅); (Some 0, french)]
    = [SetOptions 0 french].
Proof.
  apply (useUpdateOptions_different same_config (Some 0) 0 ∅ french).
  - by vm_compute.
  - by vm_compute.
Defined.

Lemma useUpdateOptions_equal_witness :
  let first := useUpdateOptions_effect same_config (Some 0) french ∅ in
  let second := useUpdateOptions_effect same_config (Some 0) french first.1 in
  (List.length first.2 ≤ 1)%nat
  ∧ Forall (λ c, call_config c = french) first.2
  ∧ second = (first.1, [])
  ∧ useUpdateOptions same_config [(Some 0, french); (Some 0, french)] = [].
Proof.
  apply (useUpdateOptions_equal same_config ∅ (Some 0) (Some 0)
           french french).
  - apply same_config_trans.
  - by vm_compute.
  - by vm_compute.
Defined.

Lemma useUpdateOptions_absent_widget_witness :
  useUpdateOptions_effect same_config None french ∅ = (french, [])
  ∧ useUpdateOptions_effect same_config (Some 0) french french = (french, [])
  ∧ rerender same_config [(None, french); (Some 0, french)] ∅ = [].
Proof.
  apply (useUpdateOptions_absent_widget same_config ∅ french french 0).
  - by vm_compute.
  - by vm_compute.
Defined.

(** ** What the specification says of the event bridge *)

Lemma listeners_of_insert c (L : gmap nat (list listener)) node ls m :
  listeners_of (Page c (<[node := ls]> L)) m
    = if decide (node = m) then ls else listeners_of (Page c L) m.
Proof.
  unfold listeners_of. cbn [listeners]. rewrite lookup_insert.
  by case_decide.
Qed.

Lemma listeners_of_add node key fn d m :
  listeners_of (addEventListener node key fn d) m =
    if decide (node = m) then
      if bool_decide (Listener key fn ∈ listeners_of d node)
      then listeners_of d node
      else (listeners_of d node ++ [Listener key fn])%list
    else listeners_of d m.
Proof.
  unfold addEventListener. case_bool_decide.
  - by case_decide; subst.
  - rewrite listeners_of_insert. by destruct d.
Qed.

Lemma listeners_of_remove node key fn d m :
  listeners_of (removeEventListener node key fn d) m =
    if decide (node = m)
    then filter (λ l, l ≠ Listener key fn) (listeners_of d node)
    else listeners_of d m.
Proof.
  unfold removeEventListener. rewrite listeners_of_insert. by destruct d.
Qed.

(** Attaching listeners that are new to the node and distinct appends them
    all, in order. *)
Lemma listeners_of_add_all node fns d m :
  NoDup (listeners_of d node ++ fns) →
  listeners_of
    (foldl (λ d f, addEventListener node (listener_key f) (listener_fn f) d)
           d fns) m =
    if decide (node = m) then (listeners_of d node ++ fns)%list
    else listeners_of d m.
Proof.
  revert d. induction fns as [|[key fn] fns IH]; intros d Hnd; cbn [foldl].
  - rewrite app_nil_r. by case_decide; subst.
  - cbn [listener_key listener_fn].
    assert (Listener key fn ∉ listeners_of d node) as Hnew.
    { apply NoDup_app in Hnd as (_ & Hnd & _). intros Hin.
      apply (Hnd _ Hin). by left. }
    rewrite IH; rewrite !listeners_of_add;
      rewrite (decide_True (P := node = node)) by done;
      rewrite !bool_decide_eq_false_2 by done;
      rewrite <- app_assoc; [|done].
    by repeat case_decide.
Qed.

(** Detaching every entry of [fns] leaves the listeners that are none of
    them. *)
Lemma listeners_of_remove_all node fns d m :
  listeners_of
    (foldl (λ d f, removeEventListener node (listener_key f) (listener_fn f) d)
           d fns) m =
    if decide (node = m)
    then filter (λ l, l ∉ fns) (listeners_of d node)
    else listeners_of d m.
Proof.
  revert d. induction fns as [|[key fn] fns IH]; intros d; cbn [foldl].
  - case_decide; subst; [|done].
    induction (listeners_of d m) as [|l ls IHls]; [done|].
    rewrite filter_cons_True by apply not_elem_of_nil. by f_equal.
  - cbn [listener_key listener_fn]. rewrite IH, !listeners_of_remove.
    case_decide; [|done]. rewrite decide_True by done.
    rewrite list_filter_filter. apply list_filter_iff.
    intros l. rewrite not_elem_of_cons. tauto.
Qed.

Lemma fns_addresses props next :
  listener_fn <$> useEventRegistration_fns props next
    = seq next (List.length (handler_keys props)).
Proof.
  unfold useEventRegistration_fns.
  revert next. induction (handler_keys props) as [|key l IH]; intros next.
  - done.
  - rewrite imap_cons. cbn [fmap list_fmap List.length seq listener_fn].
    rewrite Nat.add_0_r. f_equal.
    rewrite <- (IH (S next)). f_equal. apply imap_ext.
    intros i k _. cbn. f_equal. lia.
Qed.

(** The filter of the bridge lets through only keys [FUNCTION_MAPPING]
    owns: each listener is attached under the event name of the table. *)
Lemma handler_event_name props key :
  key ∈ handler_keys props →
  ∃ name, own FUNCTION_MAPPING key = Some name
          ∧ event_name (normalize key) = name.
Proof.
  unfold handler_keys. rewrite list_elem_of_filter.
  intros [[_ Hh%handled_listed] _].
  rewrite normalize_listed by (apply elem_of_app; by right).
  cbn [event_name]. revert key Hh. apply Forall_forall.
  repeat constructor; by eexists.
Qed.

(** The closures of one effect run are all distinct. *)
Lemma fns_NoDup props next : NoDup (useEventRegistration_fns props next).
Proof.
  apply (NoDup_fmap_1 listener_fn). rewrite fns_addresses. apply NoDup_seq.
Qed.

Lemma filter_none {A} (P : A → Prop) `{!∀ x, Decision (P x)} (l : list A) :
  (∀ x, x ∈ l → ¬ P x) → filter P l = [].
Proof.
  induction l as [|x l IH]; intros Hl; [done|].
  rewrite filter_cons_False by (apply Hl; by left).
  apply IH. intros y Hy. apply Hl. by right.
Qed.

Lemma run_cleanup_clears st :
  in_step st → ∀ node, listeners_of (run_cleanup st.2 st.1) node = [].
Proof.
  destruct st as [d [[node' fns]|]]; unfold in_step; cbn; intros Hst node.
  - rewrite listeners_of_remove_all. specialize (Hst node) as Hnode.
    case_decide; [|done]. rewrite (Hst node'), decide_True by done.
    apply filter_none. by intros f Hf Hn.
  - apply Hst.
Qed.

Lemma effect_in_step ref_current props d :
  (∀ node, listeners_of d node = []) →
  in_step (useEventRegistration_effect ref_current props d).
Proof.
  intros Hd node. destruct ref_current as [node'|]; cbn; [|apply Hd].
  rewrite listeners_of_add_all.
  - unfold listeners_of in *. cbn [listeners]. rewrite Hd.
    by case_decide.
  - unfold listeners_of in *. cbn [listeners]. rewrite Hd.
    apply fns_NoDup.
Qed.

Lemma render_in_step st r : in_step st → in_step (render st r).
Proof. intros Hst. by apply effect_in_step, run_cleanup_clears. Qed.

Lemma renders_in_step renders st :
  in_step st → in_step (foldl render st renders).
Proof.
  revert st. induction renders as [|r renders IH]; intros st Hst; [done|].
  by apply IH, render_in_step.
Qed.

(** C5. The cleanup of an effect run takes every listener of that run off
    the node, whatever else the node carries.  Over the life of a component
    on a blank page, the node carries the listeners of the last run and no
    older one, and after unmounting it carries none: an event that fires
    then invokes no callback. *)
Theorem useEventRegistration_cleanup :
  (∀ d node props,
     let run := useEventRegistration_effect (Some node) props d in
     attached run.2 node
       = useEventRegistration_fns props (List.length (closures d))
     ∧ Forall (λ f, f ∉ listeners_of (run_cleanup run.2 run.1) node)
              (attached run.2 node))
  ∧ (∀ renders node key,
       let st := foldl render (blank, None) renders in
       listeners_of st.1 node = attached st.2 node
       ∧ listeners_of (unmount st) node = []
       ∧ fire (unmount st) node key = []).
Proof.
  split.
  - intros d node props. cbn. rewrite decide_True by done. split; [done|].
    apply Forall_forall. intros f Hf.
    rewrite listeners_of_remove_all, decide_True by done.
    rewrite list_elem_of_filter. by intros [? _].
  - intros renders node key.
    assert (in_step (foldl render (blank, None) renders)) as Hst.
    { apply renders_in_step. by intros ?. }
    cbn zeta. split; [apply Hst|].
    unfold fire, unmount. by rewrite run_cleanup_clears.
Qed.

(** One [onCommit] callback, then two callbacks on [input], on node 7. *)
Example useEventRegistration_rerender :
  let st := foldl render (blank, None)
              [ (Some 7, scenario);
                (Some 7, [("onChange", VFun 3); ("onInput", VFun 4)]) ] in
  listeners_of st.1 7 = [Listener "input" 1; Listener "input" 2]
  ∧ fire st.1 7 "input" = [VFun 3; VFun 4]
  ∧ fire st.1 7 "change" = []
  ∧ fire (unmount st) 7 "input" = [].
Proof. repeat split; by vm_compute. Qed.

(** ** What the specification says of the dispatcher *)

(** C7 (amended). On a bound element whose own descriptor of [value] and
    whose prototype's both carry a setter, the dispatcher calls the
    prototype's setter when the element's own differs from it, and the
    element's own, the same function, when it does not; the call passes
    [detail.value], and an event of the given type follows that bubbles, is
    cancelable and carries the detail. *)
Theorem dispatchEvent_setter handler own_set prototype_set type detail :
  own_value handler = Some (Descriptor (Some own_set)) →
  prototype_value handler = Some (Descriptor (Some prototype_set)) →
  dispatchEvent (Some handler) type detail =
    Return [ SetterCall (if decide (own_set ≠ prototype_set)
                         then prototype_set else own_set)
                        (get detail "value");
             DispatchEvent type true true detail ].
Proof.
  intros Hown Hproto. unfold dispatchEvent. rewrite Hown, Hproto.
  cbn [descriptor_set]. rewrite bool_decide_eq_true_2 by by eexists.
  cbn [andb]. case_decide as Hne.
  - rewrite bool_decide_eq_true_2; [done|]. by intros [= ?].
  - rewrite bool_decide_eq_false_2; [done|]. intros Hs. apply Hs.
    by f_equal.
Qed.

(** With no element bound the dispatcher does nothing; on an element that
    lacks a descriptor, or whose descriptors lack the setter called, it
    throws before any event is dispatched. *)
Lemma dispatchEvent_unbound type detail :
  dispatchEvent None type detail = Return [].
Proof. done. Qed.

Lemma dispatchEvent_throws handler type detail :
  own_value handler = None
  ∨ prototype_value handler = None
  ∨ own_value handler = Some (Descriptor None)
  ∨ prototype_value handler = Some (Descriptor None) →
  dispatchEvent (Some handler) type detail = Throw "TypeError".
Proof.
  unfold dispatchEvent.
  destruct handler as [[[[f|]]|] [[[g|]]|]]; cbn;
    intros [?|[?|[?|?]]]; by simplify_eq.
Qed.

(** C7, as the specification states it, fails on an element whose own
    setter has been replaced: the dispatcher calls the prototype's setter,
    the specification selects the element's own. *)
Lemma specified_setter_counterexample :
  let handler := InputElement (Some (Descriptor (Some 1)))
                              (Some (Descriptor (Some 2))) in
  dispatchEvent (Some handler) "input" [("value", VStr "x")]
    = Return [ SetterCall 2 (VStr "x");
               DispatchEvent "input" true true [("value", VStr "x")] ]
  ∧ dispatchEvent (Some handler) "input" [("value", VStr "x")]
    ≠ Return [ SetterCall (specified_setter 1 2) (VStr "x");
               DispatchEvent "input" true true [("value", VStr "x")] ].
Proof. split; by vm_compute. Qed.

Lemma dispatchEvent_setter_witness :
  dispatchEvent
    (Some (InputElement (Some (Descriptor (Some 1)))
                        (Some (Descriptor (Some 2)))))
    "input" [("value", VStr "x")]
  = Return [ SetterCall 2 (VStr "x");
             DispatchEvent "input" true true [("value", VStr "x")] ].
Proof.
  apply (dispatchEvent_setter
           (InputElement (Some (Descriptor (Some 1)))
                         (Some (Descriptor (Some 2))))
           1 2 "input" [("value", VStr "x")]); reflexivity.
Defined.

(** ** What the specification says of the detached-node manager *)

(** C8 (amended). While the node is a child of the body the teardown
    returns, with the node removed and the other children as they were, as
    it does after the mount effect; on the body it leaves, where the node is
    gone, a second teardown throws. *)
Theorem useAddChild_teardown container body :
  container ∈ body →
  useAddChild_cleanup container body
    = Return (filter (λ c, c ≠ container) body)
  ∧ useAddChild_cleanup container (useAddChild_effect container body)
    = Return (filter (λ c, c ≠ container) body)
  ∧ (container ∉ filter (λ c, c ≠ container) body)
  ∧ useAddChild_cleanup container (filter (λ c, c ≠ container) body)
    = Throw "NotFoundError".
Proof.
  intros Hin.
  assert (container ∉ filter (λ c, c ≠ container) body) as Hout.
  { rewrite list_elem_of_filter. by intros [? _]. }
  unfold useAddChild_cleanup, useAddChild_effect, removeChild, appendChild.
  repeat split; [| |done|].
  - by rewrite bool_decide_eq_true_2.
  - rewrite bool_decide_eq_true_2 by (apply elem_of_app; right; by left).
    rewrite filter_app, list_filter_filter, filter_singleton_False by tauto.
    rewrite app_nil_r. f_equal. apply list_filter_iff. tauto.
  - by rewrite bool_decide_eq_false_2.
Qed.

(** C8, as the specification states it, fails: with the node gone from the
    body the teardown throws, and so does a second teardown after the
    first. *)
Lemma teardown_counterexample :
  useAddChild_cleanup 0 [] = Throw "NotFoundError"
  ∧ useAddChild_cleanup 0 (useAddChild_effect 0 []) = Return []
  ∧ useAddChild_cleanup 0 [] ≠ Return [].
Proof. repeat split; by vm_compute. Qed.

Lemma useAddChild_teardown_witness :
  useAddChild_cleanup 0 [1; 0; 2] = Return [1; 2]
  ∧ useAddChild_cleanup 0 (useAddChild_effect 0 [1; 0; 2]) = Return [1; 2]
  ∧ (0 ∉ [1; 2])
  ∧ useAddChild_cleanup 0 [1; 2] = Throw "NotFoundError".
Proof.
  apply (useAddChild_teardown 0 [1; 0; 2]).
  computed.
Defined.

(** * Further properties of the hooks *)

(** ** The classifier *)

(** No key is filed under the name of a rename's source. *)
Lemma renamed_not_source k k' v : own MAPPING k' = Some v → renamed k ≠ k'.
Proof.
  intros Hsrc.
  assert (k' = "className" ∨ k' = "htmlFor") as Hk'.
  { revert Hsrc. cbn. repeat case_decide; intros; simplify_eq; tauto. }
  unfold renamed, normalize.
  destruct (own MAPPING k) as [t|] eqn:Hown.
  - revert Hown. cbn. repeat case_decide; intros; simplify_eq;
      by destruct Hk' as [->| ->].
  - case_bool_decide as Hp; [|cbn; congruence].
    clear Hown. revert k Hp. apply Forall_forall.
    destruct Hk' as [->| ->]; computed.
Qed.

(** A name under which a key is passed through is passed through under
    itself. *)
Lemma renamed_fixed k :
  passed_through k = true →
  passed_through (renamed k) = true ∧ renamed (renamed k) = renamed k.
Proof.
  unfold passed_through, handled, recognized, renamed, normalize.
  destruct (own MAPPING k) as [t|] eqn:Hown.
  - intros _.
    assert (t = "class" ∨ t = "for") as [->| ->]; [|split; by vm_compute..].
    revert Hown. cbn [own MAPPING].
    repeat case_decide; intros; simplify_eq; tauto.
  - case_bool_decide as Hp.
    + intros _. clear Hown. revert k Hp. apply Forall_forall.
      repeat constructor; split; by vm_compute.
    + cbn [property_key]. rewrite Hown, bool_decide_eq_false_2 by done. done.
Qed.

(** [o[k]] on an object with distinct keys. *)
Lemma get_entry (o : object) k v : NoDup (keys o) → (k, v) ∈ o → get o k = v.
Proof.
  unfold keys. induction o as [|[k' v'] o IH]; intros Hnd Hin.
  - by apply elem_of_nil in Hin.
  - cbn. apply NoDup_cons in Hnd as [Hk' Hnd].
    apply elem_of_cons in Hin as [[= -> ->]|Hin].
    + by rewrite decide_True.
    + rewrite decide_False; [by apply IH|]. intros ->. apply Hk'.
      apply list_elem_of_fmap. by exists (k, v).
Qed.

Section ClassifierMore.

Variable renderToString : value → string.

(** The value the PassthroughBag holds under the name of the last key of
    the bag filed there. *)
Lemma pass_lookup_last props l1 k l2 :
  keys props = (l1 ++ k :: l2)%list →
  passed_through k = true →
  (∀ k', k' ∈ l2 → renamed k' ≠ renamed k) →
  (filterConfig renderToString props).2 !! renamed k = Some (get props k).
Proof.
  intros Hkeys Hp Hlast. unfold filterConfig.
  rewrite Hkeys, foldl_app. cbn [foldl].
  rewrite loop_pass_keep by done.
  by rewrite step_pass, bool_decide_eq_true_2.
Qed.

(** X1. The ConfigurationObject in full: it has a key exactly when the bag
    has it, [OPTIONS] lists it and [FUNCTION_MAPPING] does not; the value is
    the rendered string when the bag's value is a React element or an array
    of React elements, and the bag's value as it is otherwise. *)
Theorem filterConfig_config_value props key :
  (filterConfig renderToString props).1 !! key =
    if bool_decide (key ∈ keys props ∧ key ∈ OPTIONS
                    ∧ key ∉ FUNCTION_PROPS)
    then Some (if renderable (get props key)
               then VStr (renderToString (get props key))
               else get props key)
    else None.
Proof.
  rewrite config_lookup. unfold stored_option.
  case_bool_decide as H1; case_bool_decide as H2; try done;
    rewrite filed_as_option_listed in H1; tauto.
Qed.

(** X2. No key of the PassthroughBag is the name of an option or of a
    handler, and none is [className] or [htmlFor]: those two reach the host
    element as [class] and [for] only. *)
Theorem filterConfig_pass_keys props :
  set_Forall (λ k, (k ∉ OPTIONS) ∧ (k ∉ FUNCTION_PROPS)
                   ∧ k ≠ "className" ∧ k ≠ "htmlFor")
             (dom (filterConfig renderToString props).2).
Proof.
  intros x (k & _ & Hp & <-)%pass_dom.
  apply andb_true_iff in Hp as [Hh%negb_true_iff Hr%negb_true_iff].
  pose proof (passed_unlisted _ Hh Hr) as Hun.
  rewrite elem_of_app in Hun.
  repeat split; try tauto; by eapply renamed_not_source.
Qed.

Lemma config_same_options props1 props2 :
  same_options props1 props2 →
  (filterConfig renderToString props1).1
    = (filterConfig renderToString props2).1.
Proof.
  intros Hsame. apply map_eq. intros x. rewrite !config_lookup.
  destruct (filed_as_option x) eqn:Hx.
  - apply filed_as_option_listed in Hx as [Ho Hf].
    destruct (Hsame x Ho Hf) as [Hin ->].
    repeat case_bool_decide; try done; tauto.
  - rewrite !bool_decide_eq_false_2; [done| |]; by intros [_ ?].
Qed.

(** X3. The ConfigurationObject depends on the options of the bag alone:
    two bags with the same options, whatever their callbacks, passthrough
    properties and order, give the same ConfigurationObject. *)
Theorem filterConfig_config_options props1 props2 :
  same_options props1 props2 →
  (filterConfig renderToString props1).1
    = (filterConfig renderToString props2).1.
Proof. apply config_same_options. Qed.

(** X4. Classifying the PassthroughBag again changes nothing: in whatever
    order its properties are enumerated, every one of them is passed through
    once more, under the same name. *)
Theorem filterConfig_pass_again props bag :
  bag ≡ₚ map_to_list (filterConfig renderToString props).2 →
  filterConfig renderToString bag
    = (∅, (filterConfig renderToString props).2).
Proof.
  set (m := (filterConfig renderToString props).2). intros Hbag.
  assert (∀ k v, (k, v) ∈ bag ↔ m !! k = Some v) as Hentry.
  { intros k v. by rewrite Hbag, elem_of_map_to_list. }
  assert (∀ k, k ∈ keys bag ↔ k ∈ dom m) as Hkeys.
  { intros k. unfold keys. rewrite list_elem_of_fmap, elem_of_dom. split.
    - intros ([k' v] & -> & Hin%Hentry). by eexists.
    - intros [v Hv]. exists (k, v). by rewrite Hentry. }
  assert (∀ k, k ∈ dom m → passed_through k = true ∧ renamed k = k) as Hfix.
  { intros k (k0 & _ & Hp & <-)%pass_dom. by apply renamed_fixed. }
  assert (NoDup (keys bag)) as Hnd.
  { unfold keys. rewrite Hbag. apply NoDup_fst_map_to_list. }
  rewrite (surjective_pairing (filterConfig _ bag)).
  f_equal; apply map_eq; intros x.
  - rewrite config_lookup, lookup_empty, bool_decide_eq_false_2; [done|].
    intros [Hx%Hkeys%Hfix Hopt]. destruct Hx as [Hp _].
    unfold filed_as_option, passed_through in *.
    destruct (handled x), (recognized x); done.
  - destruct (m !! x) as [v|] eqn:Hx.
    + assert (x ∈ keys bag) as Hin
        by (apply Hkeys, elem_of_dom; by eexists).
      destruct (Hfix x) as [Hp Hr]; [by apply Hkeys|].
      apply list_elem_of_split in Hin as (l1 & l2 & Hsplit).
      rewrite <- Hr at 1.
      rewrite (pass_lookup_last _ l1 x l2 Hsplit Hp).
      * f_equal. apply get_entry; [done|]. by apply Hentry.
      * intros k' Hk' Heq. rewrite Hsplit in Hnd.
        apply NoDup_app in Hnd as (_ & _ & [Hnot _]%NoDup_cons).
        apply Hnot. rewrite <- Hr, <- Heq.
        destruct (Hfix k') as [_ ->]; [|done].
        apply Hkeys. rewrite Hsplit. set_solver.
    + apply not_elem_of_dom. intros (k & Hk & _ & <-)%pass_dom.
      destruct (Hfix k) as [_ Hr]; [by apply Hkeys|].
      rewrite Hr in Hx. apply Hkeys, elem_of_dom in Hk as [? ?]. congruence.
Qed.

End ClassifierMore.

Lemma with_locale_same_options :
  same_options with_locale with_locale_again.
Proof.
  unfold same_options.
  apply (Forall_forall
           (λ k, k ∉ FUNCTION_PROPS →
                 (k ∈ keys with_locale ↔ k ∈ keys with_locale_again)
                 ∧ get with_locale k = get with_locale_again k) OPTIONS).
  computed.
Qed.

Lemma filterConfig_config_options_witness :
  (filterConfig (λ _, "") with_locale).1
    = (filterConfig (λ _, "") with_locale_again).1.
Proof.
  apply (filterConfig_config_options (λ _, "") with_locale with_locale_again).
  apply with_locale_same_options.
Defined.

Lemma filterConfig_pass_again_witness :
  filterConfig (λ _, "") [("value", VStr "x^2"); ("class", VStr "foo")]
    = (∅, (filterConfig (λ _, "") scenario).2).
Proof.
  apply (filterConfig_pass_again (λ _, "") scenario
           [("value", VStr "x^2"); ("class", VStr "foo")]).
  assert (map_to_list (filterConfig (λ _, "") scenario).2
            = [("class", VStr "foo"); ("value", VStr "x^2")]) as ->
    by by vm_compute.
  apply perm_swap.
Defined.

(** ** The option updater *)

Section UpdaterMore.

Variable isEqual : gmap string value → gmap string value → bool.

Lemma rerender_calls renders configRef :
  Forall (λ c, (Some (call_widget c), call_config c) ∈ renders)
         (rerender isEqual renders configRef)
  ∧ (List.length (rerender isEqual renders configRef)
       ≤ List.length renders)%nat.
Proof.
  revert configRef.
  induction renders as [|[ref_current config] renders IH]; intros configRef.
  - split; [constructor|done].
  - cbn [rerender]. unfold useUpdateOptions_effect.
    destruct (isEqual configRef config); cbn [negb].
    + destruct (IH configRef) as [Hall Hlen]. cbn [app List.length].
      split; [|lia]. eapply Forall_impl; [done|]. intros c Hc. by right.
    + destruct (IH config) as [Hall Hlen].
      assert (Forall
                (λ c, (Some (call_widget c), call_config c)
                        ∈ (ref_current, config) :: renders)
                (rerender isEqual renders config)) as Hall'.
      { eapply Forall_impl; [done|]. intros c Hc. by right. }
      destruct ref_current as [widget|]; cbn [app List.length].
      * split; [|lia]. constructor; [by left|done].
      * split; [done|lia].
Qed.

(** X5. Every call the updater makes passes a configuration of one of the
    renders to the widget the ref held at that render, and there are no
    more calls than renders: nothing is pushed while the ref is empty, and
    nothing that was not rendered. *)
Theorem useUpdateOptions_calls_rendered renders :
  Forall (λ c, (Some (call_widget c), call_config c) ∈ renders)
         (useUpdateOptions isEqual renders)
  ∧ (List.length (useUpdateOptions isEqual renders)
       ≤ List.length renders)%nat.
Proof.
  destruct renders as [|[ref_current config] renders].
  - split; [constructor|done].
  - apply rerender_calls.
Qed.

Lemma rerender_unchanged renders configRef :
  Forall (λ r, isEqual configRef r.2 = true) renders →
  rerender isEqual renders configRef = [].
Proof.
  induction renders as [|[ref_current config] renders IH]; [done|].
  intros [Hc Hrest]%Forall_cons. cbn [rerender snd] in *.
  unfold useUpdateOptions_effect. rewrite Hc. cbn [negb app]. by apply IH.
Qed.

(** X6. While every configuration rendered is equal to the one of the
    first render, the updater calls nothing, however many renders there are
    and whether or not the widget is there. *)
Theorem useUpdateOptions_unchanged ref_current config renders :
  Forall (λ r, isEqual config r.2 = true) ((ref_current, config) :: renders) →
  useUpdateOptions isEqual ((ref_current, config) :: renders) = [].
Proof. apply rerender_unchanged. Qed.

Lemma rerender_all_pushed widget configs configRef :
  each_differs isEqual configRef configs →
  rerender isEqual ((λ c, (Some widget, c)) <$> configs) configRef
    = SetOptions widget <$> configs.
Proof.
  revert configRef. induction configs as [|config configs IH];
    intros configRef; [done|].
  intros [Hc Hrest]. cbn [fmap list_fmap rerender].
  unfold useUpdateOptions_effect. rewrite Hc. cbn [negb app].
  f_equal. by apply IH.
Qed.

(** X7. With the widget present, configurations that each differ from the
    one before are pushed one by one, in order, and the first, with which
    the updater was mounted, is not. *)
Theorem useUpdateOptions_all_pushed ref_current widget config configs :
  isEqual config config = true →
  each_differs isEqual config configs →
  useUpdateOptions isEqual
    ((ref_current, config) :: ((λ c, (Some widget, c)) <$> configs))
  = SetOptions widget <$> configs.
Proof.
  intros Hrefl Hdiff. cbn [useUpdateOptions rerender].
  unfold useUpdateOptions_effect. rewrite Hrefl. cbn [negb app].
  by apply rerender_all_pushed.
Qed.

End UpdaterMore.

Lemma useUpdateOptions_unchanged_witness :
  useUpdateOptions same_config
    [(Some 0, french); (None, french); (Some 0, french)] = [].
Proof.
  apply (useUpdateOptions_unchanged same_config (Some 0) french
           [(None, french); (Some 0, french)]).
  repeat constructor.
Defined.

Lemma useUpdateOptions_all_pushed_witness :
  useUpdateOptions same_config
    [(None, ∅); (Some 0, french); (Some 0, ∅); (Some 0, french)]
  = [SetOptions 0 french; SetOptions 0 ∅; SetOptions 0 french].
Proof.
  apply (useUpdateOptions_all_pushed same_config None 0 ∅
           [french; ∅; french]).
  - by vm_compute.
  - repeat split; by vm_compute.
Defined.

(** ** The event bridge *)

Lemma closures_add_all node fns d :
  closures
    (foldl (λ d f, addEventListener node (listener_key f) (listener_fn f) d)
           d fns)
  = closures d.
Proof.
  revert d. induction fns as [|f fns IH]; intros d; cbn [foldl]; [done|].
  rewrite IH. unfold addEventListener. by case_bool_decide.
Qed.

(** Attaching distinct listeners, none of them on the node yet, appends
    them all, whatever the node carries. *)
Lemma listeners_of_add_fresh node fns d m :
  NoDup fns →
  (∀ f, f ∈ fns → f ∉ listeners_of d node) →
  listeners_of
    (foldl (λ d f, addEventListener node (listener_key f) (listener_fn f) d)
           d fns) m =
    if decide (node = m) then (listeners_of d node ++ fns)%list
    else listeners_of d m.
Proof.
  revert d. induction fns as [|[key fn] fns IH]; intros d Hnd Hnew;
    cbn [foldl].
  - rewrite app_nil_r. by case_decide; subst.
  - cbn [listener_key listener_fn].
    apply NoDup_cons in Hnd as [Hfn Hnd].
    assert (Listener key fn ∉ listeners_of d node) as Hf
      by (apply Hnew; by left).
    rewrite IH; [|done|].
    + rewrite !listeners_of_add.
      rewrite (decide_True (P := node = node)) by done.
      rewrite !bool_decide_eq_false_2 by done.
      rewrite <- app_assoc. by repeat case_decide.
    + intros f Hin. rewrite listeners_of_add, decide_True by done.
      rewrite bool_decide_eq_false_2 by done.
      rewrite not_elem_of_app, list_elem_of_singleton. split.
      * apply Hnew. by right.
      * by intros ->.
Qed.

Lemma filter_all {A} (P : A → Prop) `{!∀ x, Decision (P x)} (l : list A) :
  (∀ x, x ∈ l → P x) → filter P l = l.
Proof.
  induction l as [|x l IH]; intros Hl; [done|].
  rewrite filter_cons_True by (apply Hl; by left).
  f_equal. apply IH. intros y Hy. apply Hl. by right.
Qed.

(** The closures of an effect run have addresses past the ones in use. *)
Lemma fns_fresh props d node f :
  allocated d →
  f ∈ useEventRegistration_fns props (List.length (closures d)) →
  f ∉ listeners_of d node.
Proof.
  intros Hd Hf Hin. apply Hd in Hin.
  assert (listener_fn f
            ∈ listener_fn <$> useEventRegistration_fns props
                                (List.length (closures d))) as Hfn
    by (apply list_elem_of_fmap; by exists f).
  rewrite fns_addresses, elem_of_seq in Hfn. lia.
Qed.

(** What the listeners of one run call. *)
Lemma fire_fns props key hk pre :
  omap (λ l, (λ f, get (forwarder_props f) (forwarder_key f))
               <$> (pre ++ (Forwarder props <$> hk))%list !! listener_fn l)
       (filter (λ l, listener_key l = key)
               (imap (λ i k, Listener (event_name (normalize k))
                                      (List.length pre + i)) hk))
  = get props <$> filter (λ k, event_name (normalize k) = key) hk.
Proof.
  revert pre. induction hk as [|k hk IH]; intros pre; [done|].
  rewrite imap_cons, !filter_cons. cbn [listener_key].
  assert (imap ((λ i k, Listener (event_name (normalize k))
                                 (List.length pre + i)) ∘ S) hk
          = imap (λ i k', Listener (event_name (normalize k'))
                            (List.length (pre ++ [Forwarder props k]) + i))
                 hk) as ->.
  { apply imap_ext. intros i k' _. cbn. f_equal.
    rewrite length_app. cbn. lia. }
  assert ((pre ++ (Forwarder props <$> k :: hk))%list
          = ((pre ++ [Forwarder props k]) ++ (Forwarder props <$> hk))%list)
    as Hheap by (by rewrite <- app_assoc).
  assert ((pre ++ (Forwarder props <$> k :: hk))%list
            !! (List.length pre + 0)%nat = Some (Forwarder props k)) as Hlook.
  { rewrite Nat.add_0_r, lookup_app_r, Nat.sub_diag by lia. done. }
  case_decide as Hk.
  - cbn [omap list_omap listener_fn]. rewrite Hlook.
    cbn [fmap option_fmap option_map forwarder_props forwarder_key
         list_fmap].
    f_equal. rewrite <- (IH (pre ++ [Forwarder props k])%list).
    by rewrite <- app_assoc.
  - rewrite <- (IH (pre ++ [Forwarder props k])%list).
    by rewrite <- app_assoc.
Qed.

Lemma fns_names props next l :
  (∀ key, key ∈ l → key ∈ handler_keys props) →
  Forall2 (λ key f, own FUNCTION_MAPPING key = Some (listener_key f)
                    ∧ is_function (get props key) = true)
          l
          (imap (λ i key, Listener (event_name (normalize key)) (next + i))
                l).
Proof.
  revert next. induction l as [|key l IH]; intros next Hl; [constructor|].
  rewrite imap_cons. constructor.
  - cbn [listener_key].
    destruct (handler_event_name props key) as (name & Hown & ->);
      [apply Hl; by left|].
    split; [done|]. specialize (Hl key ltac:(by left)).
    unfold handler_keys in Hl. rewrite list_elem_of_filter in Hl. tauto.
  - assert (imap ((λ i key, Listener (event_name (normalize key))
                                     (next + i)) ∘ S) l
            = imap (λ i key, Listener (event_name (normalize key))
                                      (S next + i)) l) as ->.
    { apply imap_ext. intros i k _. cbn. f_equal. lia. }
    apply IH. intros k Hk. apply Hl. by right.
Qed.

(** The callbacks an event invokes after the last render, over the keys
    the bridge selected. *)
Lemma fire_handler_keys renders node props key :
  let st := foldl render (blank, None)
                  (renders ++ [(Some node, props)])%list in
  fire st.1 node key
    = get props <$> filter (λ k, event_name (normalize k) = key)
                           (handler_keys props).
Proof.
  cbn zeta. rewrite foldl_app. cbn [foldl].
  set (st' := foldl render (blank, None) renders).
  assert (in_step st') as Hst' by (apply renders_in_step; by intros ?).
  pose proof (run_cleanup_clears _ Hst') as Hclear.
  unfold render. cbn [fst snd].
  set (d := run_cleanup st'.2 st'.1) in *.
  pose proof (effect_in_step (Some node) props d Hclear node) as Hls.
  unfold fire. rewrite Hls. cbn [useEventRegistration_effect fst snd attached].
  rewrite decide_True by done. rewrite closures_add_all. cbn [closures].
  apply fire_fns.
Qed.

(** A table owns a key exactly when the key is one of its keys. *)
Lemma own_is_Some t k : is_Some (own t k) ↔ k ∈ t.*1.
Proof.
  induction t as [|[k' v] t IH]; cbn.
  - split; [by intros [? ?]|by intros ?%elem_of_nil].
  - rewrite elem_of_cons. case_decide; [subst; naive_solver|].
    rewrite IH. naive_solver.
Qed.

(** The selection of the bridge, over the keys of the bag: the keys whose
    value is a function and that [FUNCTION_MAPPING] owns, in the order of
    the bag. *)
Lemma handler_keys_owned props :
  handler_keys props
    = filter (λ k, is_function (get props k) = true
                   ∧ is_Some (own FUNCTION_MAPPING k))
             (keys props).
Proof.
  unfold handler_keys. apply list_filter_iff. intros k.
  fold (handled k). rewrite handled_listed, own_is_Some. done.
Qed.

(** Of those keys, the ones the table maps to the event [key]. *)
Lemma handler_keys_event props key :
  filter (λ k, event_name (normalize k) = key) (handler_keys props)
    = filter (λ k, is_function (get props k) = true
                   ∧ own FUNCTION_MAPPING k = Some key)
             (keys props).
Proof.
  unfold handler_keys. rewrite list_filter_filter.
  apply list_filter_iff. intros k. fold (handled k).
  rewrite handled_listed. split.
  - intros (Hev & Hf & Hk). split; [done|].
    rewrite normalize_listed in Hev by (apply elem_of_app; by right).
    cbn [event_name] in Hev.
    apply own_is_Some in Hk as [name Hname].
    by rewrite Hname in Hev |- *; cbn in Hev; subst.
  - intros [Hf Hown].
    assert (k ∈ FUNCTION_PROPS) as Hk
      by (apply own_is_Some; by eexists).
    rewrite normalize_listed by (apply elem_of_app; by right).
    cbn [event_name]. by rewrite Hown.
Qed.

(** X8. After any renders the last of which gives the bridge the bag
    [props] on [node], an event named [key] on [node] invokes the values of
    the keys of [props] that are functions and that [FUNCTION_MAPPING] maps
    to [key], each once and in the order of the bag, and no callback of an
    earlier bag. *)
Theorem useEventRegistration_fire renders node props key :
  let st := foldl render (blank, None)
                  (renders ++ [(Some node, props)])%list in
  fire st.1 node key
    = get props <$> filter (λ k, is_function (get props k) = true
                                 ∧ own FUNCTION_MAPPING k = Some key)
                           (keys props).
Proof.
  cbn zeta. rewrite <- handler_keys_event.
  apply (fire_handler_keys renders node props key).
Qed.

(** X9. An effect run followed by its cleanup leaves on every node the
    listeners that were there before, in their order: the bridge removes
    what it attached and nothing else. *)
Theorem useEventRegistration_restores ref_current props d node :
  allocated d →
  let run := useEventRegistration_effect ref_current props d in
  listeners_of (run_cleanup run.2 run.1) node = listeners_of d node.
Proof.
  intros Hd. destruct ref_current as [node'|]; [|done].
  cbn [useEventRegistration_effect run_cleanup fst snd].
  set (fns := useEventRegistration_fns props (List.length (closures d))).
  rewrite listeners_of_remove_all.
  case_decide as Hnode.
  - subst node'.
    rewrite listeners_of_add_fresh, decide_True;
      [|done|apply fns_NoDup|intros f Hf; exact (fns_fresh props d _ f Hd Hf)].
    change (listeners_of (Page _ (listeners d)) node)
      with (listeners_of d node).
    rewrite filter_app, filter_all, filter_none, app_nil_r; [done| |].
    + by intros f Hf Hn.
    + intros l Hl Hin. by apply (fns_fresh props d node l).
  - rewrite listeners_of_add_fresh, decide_False;
      [done|done|apply fns_NoDup|].
    intros f Hf. exact (fns_fresh props d _ f Hd Hf).
Qed.

(** X10. The array [fns] of an effect run has one entry for each key of
    the bag whose value is a function and that [FUNCTION_MAPPING] owns, in
    the order of the bag, under the event name the table gives that key,
    and each entry has a closure of its own. *)
Theorem useEventRegistration_names props next :
  Forall2 (λ key f, own FUNCTION_MAPPING key = Some (listener_key f))
          (filter (λ k, is_function (get props k) = true
                        ∧ is_Some (own FUNCTION_MAPPING k))
                  (keys props))
          (useEventRegistration_fns props next)
  ∧ NoDup (listener_fn <$> useEventRegistration_fns props next).
Proof.
  split.
  - rewrite <- handler_keys_owned.
    eapply Forall2_impl; [by apply (fns_names props next)|].
    by intros k f [? _].
  - rewrite fns_addresses. apply NoDup_seq.
Qed.

Lemma shared_node_allocated : allocated shared_node.
Proof.
  intros node l. unfold listeners_of, shared_node. cbn [listeners closures].
  destruct (decide (node = 7)) as [->|Hne].
  - rewrite lookup_singleton_eq. cbn.
    intros ->%list_elem_of_singleton. cbn. lia.
  - rewrite lookup_singleton_ne by done. cbn. by intros ?%elem_of_nil.
Qed.

Lemma useEventRegistration_restores_witness :
  let run := useEventRegistration_effect (Some 7) scenario shared_node in
  listeners_of (run_cleanup run.2 run.1) 7 = listeners_of shared_node 7.
Proof.
  apply (useEventRegistration_restores (Some 7) scenario shared_node 7).
  apply shared_node_allocated.
Defined.

(** ** The synthetic-input dispatcher *)

(** X11. Whenever the dispatcher returns on a bound element, both
    descriptors carry a setter, and it has called the prototype's setter
    once with [detail.value] and then dispatched one event that bubbles and
    is cancelable: a setter of the element's own that differs from the
    prototype's is never called. *)
Theorem dispatchEvent_returns handler type detail acts :
  dispatchEvent (Some handler) type detail = Return acts →
  ∃ own_set prototype_set,
    own_value handler = Some (Descriptor (Some own_set))
    ∧ prototype_value handler = Some (Descriptor (Some prototype_set))
    ∧ acts = [ SetterCall prototype_set (get detail "value");
               DispatchEvent type true true detail ].
Proof.
  unfold dispatchEvent.
  destruct handler as [[[[f|]]|] [[[g|]]|]];
    cbn [own_value prototype_value descriptor_set]; try done.
  intros Hacts. exists f, g. split; [done|]. split; [done|].
  revert Hacts. rewrite bool_decide_eq_true_2 by by eexists. cbn [andb].
  case_bool_decide as Hfg; cbn; intros [= <-]; [done|].
  by injection Hfg as ->.
Qed.

Lemma dispatchEvent_returns_witness :
  ∃ own_set prototype_set,
    Some (Descriptor (Some 1)) = Some (Descriptor (Some own_set))
    ∧ Some (Descriptor (Some 2)) = Some (Descriptor (Some prototype_set))
    ∧ [ SetterCall 2 (VStr "x");
        DispatchEvent "input" true true [("value", VStr "x")] ]
      = [ SetterCall prototype_set (get [("value", VStr "x")] "value");
          DispatchEvent "input" true true [("value", VStr "x")] ].
Proof.
  apply (dispatchEvent_returns
           (InputElement (Some (Descriptor (Some 1)))
                         (Some (Descriptor (Some 2))))
           "input" [("value", VStr "x")]).
  reflexivity.
Defined.

(** X12. On a bound element the dispatcher throws a TypeError, and
    dispatches no event, exactly when the element or its prototype has no
    descriptor of [value], or one of the two descriptors has no setter. *)
Theorem dispatchEvent_throws_exactly handler type detail :
  dispatchEvent (Some handler) type detail = Throw "TypeError"
  ↔ own_value handler = None
    ∨ prototype_value handler = None
    ∨ own_value handler = Some (Descriptor None)
    ∨ prototype_value handler = Some (Descriptor None).
Proof.
  split; [|apply dispatchEvent_throws].
  unfold dispatchEvent.
  destruct handler as [[[[f|]]|] [[[g|]]|]];
    cbn [own_value prototype_value descriptor_set]; try tauto.
  rewrite bool_decide_eq_true_2 by by eexists. cbn [andb].
  by case_bool_decide.
Qed.

(** ** The detached-node manager *)

(** X13. Mounting and then unmounting leaves the children of the body as
    they were before the node was made. *)
Theorem useAddChild_round_trip container body :
  container ∉ body →
  useAddChild_cleanup container (useAddChild_effect container body)
    = Return body.
Proof.
  intros Hout.
  unfold useAddChild_cleanup, useAddChild_effect, removeChild, appendChild.
  rewrite bool_decide_eq_true_2 by (apply elem_of_app; right; by left).
  rewrite filter_app, list_filter_filter, filter_singleton_False by tauto.
  rewrite app_nil_r. f_equal. apply filter_all. intros c Hc.
  split; intros ->; done.
Qed.

Lemma useAddChild_round_trip_witness :
  useAddChild_cleanup 0 (useAddChild_effect 0 [1; 2]) = Return [1; 2].
Proof.
  apply (useAddChild_round_trip 0 [1; 2]). computed.
Defined.

(** X14. After the mount effect the node is the last child of the body and
    occurs once, the other children are in their order, and running the
    effect again changes nothing. *)
Theorem useAddChild_mounted container body :
  last (useAddChild_effect container body) = Some container
  ∧ filter (λ c, c = container) (useAddChild_effect container body)
    = [container]
  ∧ filter (λ c, c ≠ container) (useAddChild_effect container body)
    = filter (λ c, c ≠ container) body
  ∧ useAddChild_effect container (useAddChild_effect container body)
    = useAddChild_effect container body.
Proof.
  unfold useAddChild_effect, appendChild.
  assert (filter (λ c, c ≠ container)
                 (filter (λ c, c ≠ container) body ++ [container])%list
          = filter (λ c, c ≠ container) body) as Hothers.
  { rewrite filter_app, list_filter_filter, filter_singleton_False by tauto.
    rewrite app_nil_r. apply list_filter_iff. tauto. }
  repeat split.
  - apply last_snoc.
  - rewrite filter_app, list_filter_filter, filter_singleton_True by done.
    rewrite filter_none; [done|]. intros c _ [? ?]. done.
  - done.
  - by rewrite Hothers.
Qed.

(** ** The event bridge and the event names *)

Lemma own_listed t k v : own t k = Some v → v ∈ t.*2.
Proof.
  induction t as [|[k' v'] t IH]; [done|]. cbn.
  case_decide; intros; simplify_eq; [by left|right; by apply IH].
Qed.

Lemma fns_named props next node :
  named (Some (node, useEventRegistration_fns props next)).
Proof.
  unfold named.
  eapply Forall2_Forall_r; [by apply (fns_names props next)|].
  apply Forall_forall. intros key _ f [Hown _].
  by apply own_listed in Hown.
Qed.

Lemma renders_named renders st :
  named st.2 → named (foldl render st renders).2.
Proof.
  revert st. induction renders as [|[r props] renders IH]; intros st Hst;
    [done|].
  cbn [foldl]. apply IH. unfold render. cbn [fst snd].
  destruct r as [node|]; [|done]. apply fns_named.
Qed.

(** X15. The bridge listens to the events [FUNCTION_MAPPING] names and to
    no other: whatever was rendered, an event under any other name invokes
    no callback. *)
Theorem useEventRegistration_other_events renders node key :
  key ∉ event_names →
  fire (foldl render (blank, None) renders).1 node key = [].
Proof.
  intros Hkey.
  assert (in_step (foldl render (blank, None) renders)) as Hst
    by (apply renders_in_step; by intros ?).
  assert (named (foldl render (blank, None) renders).2) as Hnamed
    by by apply renders_named.
  unfold fire. rewrite Hst.
  destruct ((foldl render (blank, None) renders).2) as [[node' fns]|];
    cbn [attached named] in *; [|done].
  case_decide; [|done]. rewrite filter_none; [done|].
  intros f Hf Heq. rewrite Forall_forall in Hnamed.
  apply Hkey. rewrite <- Heq. by apply Hnamed.
Qed.

Lemma useEventRegistration_other_events_witness :
  fire (foldl render (blank, None) [(Some 7, scenario)]).1 7 "click" = [].
Proof.
  apply (useEventRegistration_other_events [(Some 7, scenario)] 7 "click").
  computed.
Defined.

(** ** The classifier and the updater together *)

Section Together.

Variable renderToString : value → string.
Variable isEqual : gmap string value → gmap string value → bool.

(** X16. Renders whose bags have the same options as the first, with the
    ConfigurationObject of each classified anew, make the updater call
    nothing: a new callback or a new passthrough property alone never
    reaches [setOptions]. *)
Theorem useUpdateOptions_same_options ref_current props renders :
  isEqual (filterConfig renderToString props).1
          (filterConfig renderToString props).1 = true →
  Forall (λ r, same_options props r.2) renders →
  useUpdateOptions isEqual
    ((λ r, (r.1, (filterConfig renderToString r.2).1))
       <$> (ref_current, props) :: renders)
  = [].
Proof.
  intros Hrefl Hsame. cbn [fmap list_fmap useUpdateOptions fst snd].
  apply rerender_unchanged. constructor; [done|].
  apply Forall_fmap. eapply Forall_impl; [done|].
  intros [r bag] Hbag. cbn [fst snd compose] in *.
  by rewrite <- (config_same_options renderToString props bag).
Qed.

End Together.

Lemma useUpdateOptions_same_options_witness :
  useUpdateOptions same_config
    ((λ r, (r.1, (filterConfig (λ _, "") r.2).1))
       <$> [(Some 0, with_locale); (Some 0, with_locale_again)])
  = [].
Proof.
  apply (useUpdateOptions_same_options (λ _, "") same_config (Some 0)
           with_locale [(Some 0, with_locale_again)]).
  - by vm_compute.
  - constructor; [|constructor]. apply with_locale_same_options.
Defined.
